(** * Job-Tracker: the resume-to-jobs pipeline of [ML_Logic_Complete.py]

    A shallow embedding of the keyword extractor, the recency classifier,
    the scrape coordinator and the upload route, with the properties the
    specification states about them.

    Conventions.
    - A Python [str] is a [string] holding one [ascii] per code point, so the
      texts covered are those whose code points lie below 256 (Latin-1).
      [str.lower], [str.split] and [in] are modelled exactly on that range.
    - A [dict] is a [gmap]; a [set] is a [gset]; iteration order of a set is
      left unspecified, and results built from one are only ever inspected
      through membership.
    - The outside world (spaCy, the search engine, the browser, the document
      decoders, the downstream server) is an [Env] record of oracles. Calls
      that can differ from one invocation to the next receive the history of
      events so far.
    - Exceptions are outcomes of the oracles; [try]/[except] is the [match]
      on them. [scrape_jobs] describes the runs of the coordinator that
      return: every exception of class [Exception] is taken by a handler.
      [scrape_jobs_interruptible] adds the raises outside that class
      ([KeyboardInterrupt], [SystemExit]), which no handler takes and which
      leave the coordinator at once. [print] is taken not to raise. *)

From Stdlib Require Import Ascii DecimalString.
From Stdlib Require String.
From stdpp Require Import gmap strings list fin_maps.

(** ** Python strings *)

Module PyStr.

(** Code point of a character. *)
Definition ord (c : ascii) : nat := nat_of_ascii c.

(** [c.isupper()] for a code point below 256: A-Z, and the Latin-1 capitals
    U+00C0-U+00DE without the multiplication sign U+00D7. *)
Definition isupper (c : ascii) : bool :=
  let n := ord c in
  ((65 <=? n) && (n <=? 90)) ||
  ((192 <=? n) && (n <=? 222) && negb (n =? 215)).

(** [c.lower()]: every capital below 256 has its small letter 32 above. *)
Definition lower_char (c : ascii) : ascii :=
  if isupper c then ascii_of_nat (ord c + 32) else c.

(** [s.lower()] *)
Fixpoint lower (s : string) : string :=
  match s with
  | EmptyString => EmptyString
  | String c s' => String (lower_char c) (lower s')
  end.

(** [c.isspace()] for a code point below 256:
    U+0009-U+000D, U+001C-U+0020, U+0085, U+00A0. *)
Definition isspace (c : ascii) : bool :=
  let n := ord c in
  ((9 <=? n) && (n <=? 13)) || ((28 <=? n) && (n <=? 32)) ||
  (n =? 133) || (n =? 160).

(** [s.startswith(p)] *)
Fixpoint startswith (p s : string) : bool :=
  match p, s with
  | EmptyString, _ => true
  | String _ _, EmptyString => false
  | String a p', String b s' => if ascii_dec a b then startswith p' s' else false
  end.

(** [needle in hay]: some suffix of [hay] starts with [needle]. *)
Fixpoint str_in (needle hay : string) : bool :=
  startswith needle hay ||
  match hay with
  | EmptyString => false
  | String _ hay' => str_in needle hay'
  end.

(** [s.split()]: the maximal runs of non-whitespace characters, in order.
    [cur] is the run being read. *)
Fixpoint split_go (cur : string) (s : string) : list string :=
  match s with
  | EmptyString => if String.eqb cur "" then [] else [cur]
  | String c s' =>
      if isspace c
      then (if String.eqb cur "" then [] else [cur]) ++ split_go "" s'
      else split_go (cur +:+ String c "") s'
  end.

Definition split (s : string) : list string := split_go "" s.

(** [f"{i}"] for a natural number: its decimal digits. *)
Definition str_of_nat (i : nat) : string :=
  NilZero.string_of_uint (Nat.to_uint i).

(** [s.split(sep)[-1]] for a one-character separator: what follows the
    last [sep], the whole of [s] when there is none. *)
Fixpoint split_last (sep : ascii) (s : string) : string :=
  match s with
  | EmptyString => EmptyString
  | String c s' =>
      if existsb (fun d => if ascii_dec d sep then true else false)
                 (String.list_ascii_of_string s')
      then split_last sep s'
      else if ascii_dec c sep then s' else s
  end.

(** The specification of [in]: [needle] occurs in [hay] at some offset. *)
Definition occurs (needle hay : string) : Prop :=
  ∃ pre post, hay = pre +:+ needle +:+ post.

End PyStr.

Import PyStr.

(** ** The recency classifier *)

(** [any(p(x) for x in xs)] *)
Definition any {A} (p : A → bool) (xs : list A) : bool := existsb p xs.
Global Arguments any : simpl never.

(** [range(a, b)] *)
Definition range (a b : nat) : list nat := seq a (b - a).

(** [is_recent_job_posting]. The unused local [today] is dropped. *)
Definition is_recent_job_posting (text : string) : bool :=
  let text_lower := lower text in
  if str_in "just posted" text_lower || str_in "new" text_lower
     || str_in "24 hours" text_lower
  then true
  else
    any (fun i => str_in (str_of_nat i +:+ " day") text_lower
                  || str_in (str_of_nat i +:+ "d") text_lower)
        (range 1 8).

(** ** The keyword extractor *)

(** What spaCy hands back: the entities of a parsed document. *)
Module Spacy.
Record Entity := { text : string; label_ : string }.
End Spacy.

(** The interpreter-wide [nlp]: the loaded model, or [None] when loading
    raised [OSError] at start-up. *)
Definition Nlp : Type := option (string → list Spacy.Entity).

Definition tech_skills : list string :=
  ["Python"; "JavaScript"; "React"; "Angular"; "Vue"; "Node.js";
   "SQL"; "MongoDB"; "AWS"; "Azure"; "Docker"; "Kubernetes";
   "Machine Learning"; "Data Science"; "API"; "FastAPI"].

(** [[ent.text for ent in doc.ents if ent.label_ in (...)]] *)
Definition general_keywords (ents : list Spacy.Entity) : list string :=
  Spacy.text <$>
    filter (λ ent, Spacy.label_ ent ∈ ["ORG"; "GPE"; "PRODUCT"; "JOB"]) ents.

(** The loop filling [found_skills]. *)
Definition found_skills (resume_text : string) : gset string :=
  foldl (λ found skill,
           if str_in (lower skill) (lower resume_text)
           then found ∪ {[skill]} else found)
        ∅ tech_skills.

(** The final filter's condition, [len(kw.split()) > 1 or len(kw) > 3]. *)
Definition long_enough (kw : string) : Prop :=
  1 < length (split kw) ∨ 3 < String.length kw.

Definition extract_keywords_from_resume (nlp : Nlp) (resume_text : string)
  : list string :=
  match nlp with
  | None => ["Fallback"; "NLP Error"]
  | Some nlp =>
      let doc := nlp resume_text in
      let all_keywords :=
        elements (list_to_set (general_keywords doc
                               ++ elements (found_skills resume_text))
                  : gset string) in
      filter long_enough all_keywords
  end.

(** ** The outside world *)

(** The exception classes the coordinator's handlers tell apart. *)
Inductive exn := TimeoutException | WebDriverException | OtherException.

(** One run of the [search(...)] generator: it yields URLs one at a time and
    ends by running out or by raising. *)
Inductive search_run :=
| Yield (url : string) (rest : search_run)
| StopIteration
| SearchRaises (e : exn).

(** [driver.get(url)] followed by reading and parsing [driver.page_source]:
    the text of the page, or the exception raised on the way. *)
Inductive page_load :=
| PageText (page : string)
| GetRaises (e : exn).

(** [requests.post(...)]: a response with its status code, or a
    [RequestException] with its message. *)
Inductive post_result :=
| Response (status_code : Z)
| RequestException (e : string).

(** What the pipeline does to the outside world, in order. *)
Inductive event :=
| EvExtract (resume_text : string)
| EvChrome (started : bool)
| EvSearch (query : string)
| EvGet (url : string)
| EvQuit
| EvPost (payload : gmap string (list string)).

Global Instance event_eq_dec : EqDecision event.
Proof. solve_decision. Defined.

Record Env := {
  nlp : Nlp;
  (** [webdriver.Chrome(options=...)] returns a driver *)
  chrome : list event → bool;
  (** [search(query, num_results=5, lang="en")] *)
  search : list event → string → search_run;
  (** [driver.get(url)] and the text of the rendered page *)
  get : list event → string → page_load;
  (** [PyPDF2.PdfReader(...)] and [extract_text] of each page;
      [None] when any of it raises *)
  pdf_pages : list Byte.byte → option (list string);
  (** [docx2txt.process(...).decode("utf-8")]; [None] when it raises *)
  docx_text : list Byte.byte → option string;
  (** [bytes.decode("utf-8")]; [None] for [UnicodeDecodeError] *)
  decode_utf8 : list Byte.byte → option string;
  (** [requests.post(GO_SERVER_URL, json=..., timeout=30)] *)
  post : list event → gmap string (list string) → post_result;
}.

(** ** The scrape coordinator *)

Record State := {
  results_by_keyword : gmap string (list string);
  history : list event;
}.

Definition hiring_words : list string :=
  ["apply now"; "vacancy"; "hiring"; "job"; "careers"].

(** The body of the inner [for url in search(...)] loop. The random sleep
    before each fetch changes no value and is left out. *)
Definition scrape_url (env : Env) (keyword url : string) (st : State) : State :=
  let h := history st ++ [EvGet url] in
  match get env (history st) url with
  | PageText page =>
      let text := lower page in
      if any (λ word, str_in word text) hiring_words
         && is_recent_job_posting text
      then
        match results_by_keyword st !! keyword with
        | Some urls =>
            {| results_by_keyword :=
                 <[keyword := urls ++ [url]]> (results_by_keyword st);
               history := h |}
        | None =>
            (* KeyError, taken by [except Exception] *)
            {| results_by_keyword := results_by_keyword st; history := h |}
        end
      else {| results_by_keyword := results_by_keyword st; history := h |}
  | GetRaises (TimeoutException | WebDriverException) =>
      (* except (TimeoutException, WebDriverException): continue *)
      {| results_by_keyword := results_by_keyword st; history := h |}
  | GetRaises OtherException =>
      (* except Exception: continue *)
      {| results_by_keyword := results_by_keyword st; history := h |}
  end.

(** The inner loop, over what the generator yields. A raise of the generator
    leaves the loop and is taken by the keyword's [except Exception]. *)
Fixpoint scrape_urls (env : Env) (keyword : string) (run : search_run)
    (st : State) : State :=
  match run with
  | Yield url rest => scrape_urls env keyword rest (scrape_url env keyword url st)
  | StopIteration => st
  | SearchRaises _ => st
  end.

(** The body of the outer [for keyword in keywords] loop. *)
Definition scrape_keyword (env : Env) (st : State) (keyword : string) : State :=
  let st0 :=
    {| results_by_keyword := <[keyword := []]> (results_by_keyword st);
       history := history st ++ [EvSearch (keyword +:+ " job")] |} in
  scrape_urls env keyword (search env (history st) (keyword +:+ " job")) st0.

(** The outer loop, entered with a fresh driver and an empty dict. *)
Definition scrape_loop (env : Env) (keywords : list string) (h : list event)
  : State :=
  foldl (scrape_keyword env)
        {| results_by_keyword := ∅; history := h ++ [EvChrome true] |}
        keywords.

(** [scrape_jobs], started after the events [h]. *)
Definition scrape_jobs (env : Env) (keywords : list string) (h : list event)
  : gmap string (list string) * list event :=
  if chrome env h then
    let st := scrape_loop env keywords h in
    (results_by_keyword st, history st ++ [EvQuit])
  else
    (∅, h ++ [EvChrome false]).

(** ** The coordinator with raises that no handler takes *)

(** The exceptions outside the [Exception] class. [except Exception] and
    [except (TimeoutException, WebDriverException)] let them pass. *)
Inductive base_exn := KeyboardInterrupt | SystemExit.

(** Where in [scrape_jobs] such a raise arrives: in [webdriver.Chrome(...)],
    at the head of a keyword's iteration (lines 127-128), while the search
    generator is asked for its next URL, in the sleep, load and test of a
    URL (lines 133-143), or in one of the three handlers. *)
Inductive site := AtChrome | AtKeyword | AtNext | AtGet | AtHandler.

(** The raise, if any, that arrives at a site after the events so far. *)
Definition Interrupts : Type := list event → site → option base_exn.

(** How a call of the coordinator ends. *)
Inductive exit (A : Type) :=
| Returned (a : A)
| Propagated (e : base_exn).
Global Arguments Returned {A} a.
Global Arguments Propagated {A} e.

(** The body of the inner loop. A raise in the sleep or the load leaves the
    URL unrecorded; a raise in a handler comes after the failed load. *)
Definition scrape_url_interruptible (env : Env) (intr : Interrupts)
    (keyword url : string) (st : State) : State * option base_exn :=
  match intr (history st) AtGet with
  | Some e => (st, Some e)
  | None =>
      let st' := scrape_url env keyword url st in
      match get env (history st) url with
      | PageText _ => (st', None)
      | GetRaises _ => (st', intr (history st') AtHandler)
      end
  end.

(** The inner loop. The state comes with the raise that ended the loop, if
    one did. *)
Fixpoint scrape_urls_interruptible (env : Env) (intr : Interrupts)
    (keyword : string) (run : search_run) (st : State)
  : State * option base_exn :=
  match intr (history st) AtNext with
  | Some e => (st, Some e)
  | None =>
      match run with
      | Yield url rest =>
          match scrape_url_interruptible env intr keyword url st with
          | (st', Some e) => (st', Some e)
          | (st', None) => scrape_urls_interruptible env intr keyword rest st'
          end
      | StopIteration => (st, None)
      | SearchRaises _ => (st, intr (history st) AtHandler)
      end
  end.

(** The body of the outer loop. *)
Definition scrape_keyword_interruptible (env : Env) (intr : Interrupts)
    (st : State) (keyword : string) : State * option base_exn :=
  match intr (history st) AtKeyword with
  | Some e => (st, Some e)
  | None =>
      let st0 :=
        {| results_by_keyword := <[keyword := []]> (results_by_keyword st);
           history := history st ++ [EvSearch (keyword +:+ " job")] |} in
      scrape_urls_interruptible env intr keyword
        (search env (history st) (keyword +:+ " job")) st0
  end.

(** The outer loop, which a raise leaves before the remaining keywords. *)
Fixpoint scrape_loop_interruptible (env : Env) (intr : Interrupts)
    (keywords : list string) (st : State) : State * option base_exn :=
  match keywords with
  | [] => (st, None)
  | keyword :: rest =>
      match scrape_keyword_interruptible env intr st keyword with
      | (st', Some e) => (st', Some e)
      | (st', None) => scrape_loop_interruptible env intr rest st'
      end
  end.

(** [scrape_jobs] with these raises. [driver.quit()] is the statement after
    the loop and is reached only when the loop ends without a raise. *)
Definition scrape_jobs_interruptible (env : Env) (intr : Interrupts)
    (keywords : list string) (h : list event)
  : exit (gmap string (list string)) * list event :=
  match intr h AtChrome with
  | Some e => (Propagated e, h)
  | None =>
      if chrome env h then
        match scrape_loop_interruptible env intr keywords
                {| results_by_keyword := ∅; history := h ++ [EvChrome true] |}
        with
        | (st, None) => (Returned (results_by_keyword st), history st ++ [EvQuit])
        | (st, Some e) => (Propagated e, history st)
        end
      else
        (Returned ∅, h ++ [EvChrome false])
  end.

(** ** The upload route *)

Record UploadFile := { filename : string; file_content : list Byte.byte }.

(** How a call of the route ends: with a JSON body, or with an exception no
    handler took. *)
Inductive reply :=
| Return (status message : string)
| Uncaught (e : string).

(** Step 1 of [recommend_jobs]: the text of the upload, or the early reply. *)
Definition read_resume (env : Env) (file : UploadFile) : string + reply :=
  let file_type := lower (split_last "." (filename file)) in
  if decide (file_type = "pdf") then
    match pdf_pages env (file_content file) with
    | Some pages => inl (foldl String.append "" pages)
    | None => inr (Return "error" "Failed to parse PDF content.")
    end
  else if decide (file_type = "docx") then
    match docx_text env (file_content file) with
    | Some resume_text => inl resume_text
    | None => inr (Return "error" "Failed to parse DOCX content.")
    end
  else
    match decode_utf8 env (file_content file) with
    | Some resume_text => inl resume_text
    | None => inr (Uncaught "UnicodeDecodeError")
    end.

Definition recommend_jobs (env : Env) (file : UploadFile) : reply * list event :=
  match read_resume env file with
  | inr early => (early, [])
  | inl resume_text =>
      let keywords := extract_keywords_from_resume (nlp env) resume_text in
      let '(fetched_jobs, h) :=
        scrape_jobs env keywords [EvExtract resume_text] in
      let h' := h ++ [EvPost fetched_jobs] in
      match post env h fetched_jobs with
      | Response status_code =>
          if decide (status_code = 200%Z)
          then (Return "success" "Job data sent to Go server.", h')
          else (Return "error" "Failed to send data to Go server.", h')
      | RequestException e =>
          (Return "error" ("Connection error: " +:+ e), h')
      end
  end.

(** ** What the specification's words mean *)

(** A term has internal whitespace when a whitespace character stands
    between two characters that are not whitespace. *)
Definition has_nonspace (s : string) : Prop :=
  ∃ p d q, s = p +:+ String d q ∧ isspace d = false.

Definition internal_whitespace (s : string) : Prop :=
  ∃ a c b, s = a +:+ String c b ∧ has_nonspace a ∧ isspace c = true
           ∧ has_nonspace b.

(** A whitespace character followed, sooner or later, by a character that
    is not whitespace. *)
Definition space_then_word (s : string) : Prop :=
  ∃ a c b, s = a +:+ String c b ∧ isspace c = true ∧ has_nonspace b.

(** The number of words [split] finds in [s], told whether it is reading a
    word when [s] starts. *)
Fixpoint words_from (in_word : bool) (s : string) : nat :=
  match s with
  | EmptyString => if in_word then 1 else 0
  | String c s' =>
      if isspace c
      then (if in_word then 1 else 0) + words_from false s'
      else words_from true s'
  end.

(** The URLs a generator run yields before it ends. *)
Fixpoint yielded (run : search_run) : list string :=
  match run with
  | Yield url rest => url :: yielded rest
  | StopIteration | SearchRaises _ => []
  end.

(** A generator run that ends by raising. *)
Fixpoint raises (run : search_run) : Prop :=
  match run with
  | Yield _ rest => raises rest
  | StopIteration => False
  | SearchRaises _ => True
  end.

(** The page passes the relevance and the recency test. *)
Definition passes (text : string) : Prop :=
  (∃ word, word ∈ hiring_words ∧ occurs word text)
  ∧ is_recent_job_posting text = true.

(** The URLs of a run, started after the events [h], whose page could be
    fetched and passes both tests. *)
Fixpoint accepted (env : Env) (h : list event) (run : search_run)
  : list string :=
  match run with
  | Yield url rest =>
      match get env h url with
      | PageText page =>
          if any (λ word, str_in word (lower page)) hiring_words
             && is_recent_job_posting (lower page)
          then url :: accepted env (h ++ [EvGet url]) rest
          else accepted env (h ++ [EvGet url]) rest
      | GetRaises _ => accepted env (h ++ [EvGet url]) rest
      end
  | StopIteration | SearchRaises _ => []
  end.

(** The events of fetching: searches and page loads. *)
Definition fetching (e : event) : Prop :=
  match e with
  | EvSearch _ | EvGet _ => True
  | _ => False
  end.

(** How often the driver is released in a history. *)
Definition releases (h : list event) : nat := count_occ event_eq_dec h EvQuit.

(** How often a driver is acquired in a history. *)
Definition acquisitions (h : list event) : nat :=
  count_occ event_eq_dec h (EvChrome true).

(** ** Sample worlds *)

(** A world with no spaCy model and no readable document, whose browser
    starts or not, and whose search engine and pages do not change over
    time. *)
Definition world (started : bool) (runs : string → search_run)
    (page : string → page_load) : Env :=
  {| nlp := None;
     chrome := λ _, started;
     search := λ _, runs;
     get := λ _, page;
     pdf_pages := λ _, None;
     docx_text := λ _, None;
     decode_utf8 := λ _, None;
     post := λ _ _, Response 200 |}.

(** Every page is a fresh job posting. *)
Definition fresh_posting (url : string) : page_load :=
  PageText "We are hiring - posted 2 days ago".

(** The search for "Rust" yields one URL and then raises; any other search
    yields one URL and ends. *)
Definition flaky_search (query : string) : search_run :=
  if decide (query = "Rust job")
  then Yield "https://jobs.example/rust" (SearchRaises OtherException)
  else Yield "https://jobs.example/go" StopIteration.


(** A world whose browser starts, whose search for "Rust" breaks off, and
    whose pages are all fresh postings. *)
Definition sample_world : Env := world true flaky_search fresh_posting.

(** The coordinator's state when the list of "Go" has just been set up. *)
Definition sample_state : State :=
  {| results_by_keyword := {["Go" := []]}; history := [] |}.

(** An upload named as a PDF that PyPDF2 cannot read. *)
Definition sample_pdf : UploadFile :=
  {| filename := "resume.PDF"; file_content := [] |}.

(** No raise outside the [Exception] class ever arrives. *)
Definition undisturbed : Interrupts := λ _ _, None.

(** Ctrl-C arrives while the first URL is being loaded. *)
Definition interrupted_load : Interrupts :=
  λ _ where_, match where_ with AtGet => Some KeyboardInterrupt | _ => None end.

(** ** Reading a history *)

(** The queries sent to the search engine, in order. *)
Definition searches (h : list event) : list string :=
  omap (λ e, match e with EvSearch query => Some query | _ => None end) h.

(** The maps posted to the downstream server, in order. *)
Definition posts (h : list event) : list (gmap string (list string)) :=
  omap (λ e, match e with EvPost payload => Some payload | _ => None end) h.

(** ** More of the specification's words *)

(** The string holds no dot. *)
Definition dotless (s : string) : Prop :=
  "."%char ∉ String.list_ascii_of_string s.

(** The curated skills that pass the final filter. *)
Definition lasting_skills : list string := filter long_enough tech_skills.

(** A world like [world], in which every upload decodes as UTF-8 to
    [resume_text], searches are flaky and pages are fresh postings. *)
Definition reading_world (started : bool) (resume_text : string) : Env :=
  {| nlp := None;
     chrome := λ _, started;
     search := λ _, flaky_search;
     get := λ _, fresh_posting;
     pdf_pages := λ _, None;
     docx_text := λ _, None;
     decode_utf8 := λ _, Some resume_text;
     post := λ _ _, Response 200 |}.

(** A plain-text upload. *)
Definition sample_txt : UploadFile :=
  {| filename := "resume.txt"; file_content := [] |}.

(** ** Facts about Python strings *)

(** Closes a decidable goal about concrete data by evaluating its decision
    procedure. *)
Ltac by_evaluation := refine (bool_decide_unpack _ _); vm_compute; exact I.

Section StringFacts.

Lemma app_cons (c : ascii) (s t : string) :
  String c s +:+ t = String c (s +:+ t).
Proof. reflexivity. Qed.

Lemma app_empty_r (s : string) : s +:+ "" = s.
Proof. induction s as [|c s IH]; [done | by rewrite app_cons, IH]. Qed.

Lemma app_assoc_str (a b c : string) : (a +:+ b) +:+ c = a +:+ (b +:+ c).
Proof. induction a as [|x a IH]; [done | by rewrite !app_cons, IH]. Qed.

Lemma length_app_str (a b : string) :
  String.length (a +:+ b) = String.length a + String.length b.
Proof. induction a as [|x a IH]; [done | rewrite app_cons; simpl; by rewrite IH]. Qed.

Lemma lower_app (a b : string) : lower (a +:+ b) = lower a +:+ lower b.
Proof.
  induction a as [|x a IH]; [done |].
  rewrite app_cons. simpl. by rewrite IH.
Qed.

Lemma startswith_spec (p s : string) :
  startswith p s = true ↔ ∃ post, s = p +:+ post.
Proof.
  revert s. induction p as [|a p IH]; intros s; simpl.
  - split; [intros _; by exists s | done].
  - destruct s as [|b s].
    + split; [done | intros [post H]; discriminate H].
    + destruct (ascii_dec a b) as [->|Hne].
      * rewrite IH. split; intros [post H]; exists post.
        -- by rewrite app_cons, H.
        -- by injection H.
      * split; [done | intros [post H]; injection H; congruence].
Qed.

Lemma str_in_spec (needle hay : string) :
  str_in needle hay = true ↔ occurs needle hay.
Proof.
  unfold occurs. induction hay as [|c hay IH]; simpl.
  - rewrite orb_false_r, startswith_spec. split.
    + intros [post H]. by exists "", post.
    + intros ([|x pre] & post & H); [by exists post | discriminate H].
  - rewrite orb_true_iff, startswith_spec, IH. split.
    + intros [[post H] | (pre & post & H)].
      * by exists "", post.
      * exists (String c pre), post. by rewrite app_cons, H.
    + intros ([|x pre] & post & H).
      * left. by exists post.
      * right. injection H as _ H. by exists pre, post.
Qed.

Lemma occurs_lower (needle hay : string) :
  occurs needle hay → occurs (lower needle) (lower hay).
Proof.
  intros (pre & post & ->). exists (lower pre), (lower post).
  by rewrite !lower_app.
Qed.

Lemma any_spec {A} (p : A → bool) (xs : list A) :
  any p xs = true ↔ ∃ x, x ∈ xs ∧ p x = true.
Proof.
  unfold any. rewrite existsb_exists.
  split; intros (x & Hx & Hp); exists x; by rewrite ?list_elem_of_In in *.
Qed.

Lemma elem_of_range (a b n : nat) : n ∈ range a b ↔ a ≤ n < b.
Proof. unfold range. rewrite elem_of_seq. lia. Qed.

End StringFacts.

(** ** The recency classifier, on samples *)

Example is_recent_samples :
  map is_recent_job_posting
      ["Just Posted 2 days ago"; "Posted last month"; "3d ago, apply now";
       "8 days ago"; "13 days ago"; "3d printing"; "Renewal"]
  = [true; false; true; false; true; true; true].
Proof. reflexivity. Qed.


(** ** The recency classifier *)

Section Recency.

Lemma is_recent_iff (text : string) :
  is_recent_job_posting text = true ↔
    occurs "just posted" (lower text) ∨ occurs "new" (lower text)
    ∨ occurs "24 hours" (lower text)
    ∨ ∃ n, 1 ≤ n ≤ 7
           ∧ (occurs (str_of_nat n +:+ " day") (lower text)
              ∨ occurs (str_of_nat n +:+ "d") (lower text)).
Proof.
  unfold is_recent_job_posting.
  destruct (str_in "just posted" (lower text)) eqn:E1; cbn [orb].
  { split; [intros _; left; by apply str_in_spec | done]. }
  destruct (str_in "new" (lower text)) eqn:E2; cbn [orb].
  { split; [intros _; right; left; by apply str_in_spec | done]. }
  destruct (str_in "24 hours" (lower text)) eqn:E3; cbn [orb].
  { split; [intros _; do 2 right; left; by apply str_in_spec | done]. }
  rewrite any_spec. split.
  - intros (n & Hn & Hp). do 3 right. exists n.
    apply elem_of_range in Hn. split; [lia |].
    apply orb_true_iff in Hp. by rewrite <- !str_in_spec.
  - intros [H | [H | [H | (n & Hn & Hp)]]].
    + apply str_in_spec in H. congruence.
    + apply str_in_spec in H. congruence.
    + apply str_in_spec in H. congruence.
    + exists n. split; [apply elem_of_range; lia |].
      apply orb_true_iff. by rewrite !str_in_spec.
Qed.

(** The day-count needles are already in lower case. *)
Lemma lower_day_needle (n : nat) :
  1 ≤ n ≤ 7 →
  lower (str_of_nat n +:+ " day") = str_of_nat n +:+ " day"
  ∧ lower (str_of_nat n +:+ "d") = str_of_nat n +:+ "d".
Proof.
  intros Hn.
  assert (Hcases : n ∈ [1; 2; 3; 4; 5; 6; 7]).
  { change [1; 2; 3; 4; 5; 6; 7] with (range 1 8). apply elem_of_range. lia. }
  repeat (apply elem_of_cons in Hcases as [-> | Hcases]; [by split |]).
  by apply elem_of_nil in Hcases.
Qed.

End Recency.

(** C4. [is_recent_job_posting] answers true exactly when the lower-cased
    text contains "just posted", "new", "24 hours", or "<n> day" or "<n>d"
    for some n from 1 to 7; the four sample texts of the specification get
    true, false, true and false. *)
Theorem is_recent_job_posting_spec :
  (∀ text,
     is_recent_job_posting text = true ↔
       occurs "just posted" (lower text) ∨ occurs "new" (lower text)
       ∨ occurs "24 hours" (lower text)
       ∨ ∃ n, 1 ≤ n ≤ 7
              ∧ (occurs (str_of_nat n +:+ " day") (lower text)
                 ∨ occurs (str_of_nat n +:+ "d") (lower text)))
  ∧ is_recent_job_posting "Just Posted 2 days ago" = true
  ∧ is_recent_job_posting "Posted last month" = false
  ∧ is_recent_job_posting "3d ago, apply now" = true
  ∧ is_recent_job_posting "8 days ago" = false.
Proof. split; [exact is_recent_iff | by repeat split]. Qed.

(** C10. A text in which a digit from 1 to 7 is directly followed by " day"
    or by "d" is classified as recent, whatever stands before the digit:
    the day count itself may lie outside 1-7, and the text need not be a
    date at all. *)
Theorem is_recent_last_digit (text : string) (n : nat) :
  1 ≤ n ≤ 7 →
  occurs (str_of_nat n +:+ " day") text ∨ occurs (str_of_nat n +:+ "d") text →
  is_recent_job_posting text = true.
Proof.
  intros Hn H. apply is_recent_iff. do 3 right. exists n. split; [done |].
  destruct (lower_day_needle n Hn) as [Hday Hd].
  destruct H as [H | H]; apply occurs_lower in H.
  - left. by rewrite Hday in H.
  - right. by rewrite Hd in H.
Qed.

Lemma is_recent_last_digit_witness :
  1 ≤ 3 ≤ 7
  ∧ (occurs (str_of_nat 3 +:+ " day") "13 days ago"
     ∨ occurs (str_of_nat 3 +:+ "d") "13 days ago")
  ∧ is_recent_job_posting "13 days ago" = true.
Proof.
  assert (Hocc : occurs (str_of_nat 3 +:+ " day") "13 days ago")
    by (by exists "1", "s ago").
  split; [lia |]. split; [by left |].
  apply (is_recent_last_digit "13 days ago" 3); [lia | by left].
Defined.

Example is_recent_beyond_a_week :
  is_recent_job_posting "27 days ago" = true
  ∧ is_recent_job_posting "3d printing" = true.
Proof. by split. Qed.

(** ** Words and internal whitespace *)

Section Words.

Lemma length_split_go (cur s : string) :
  length (split_go cur s) = words_from (negb (String.eqb cur "")) s.
Proof.
  revert cur. induction s as [|c s IH]; intros cur; simpl.
  - by destruct (String.eqb cur "").
  - destruct (isspace c).
    + rewrite length_app, IH. by destruct (String.eqb cur "").
    + rewrite IH. by destruct cur.
Qed.

Lemma length_split (s : string) : length (split s) = words_from false s.
Proof. apply length_split_go. Qed.

Lemma has_nonspace_empty : ¬ has_nonspace "".
Proof. by intros ([|x p] & d & q & H & _). Qed.

Lemma has_nonspace_cons (c : ascii) (s : string) :
  has_nonspace (String c s) ↔ isspace c = false ∨ has_nonspace s.
Proof.
  split.
  - intros ([|x p] & d & q & H & Hd); injection H as -> H.
    + by left.
    + right. by exists p, d, q.
  - intros [Hc | (p & d & q & -> & Hd)].
    + by exists "", c, s.
    + by exists (String c p), d, q.
Qed.

Lemma space_then_word_empty : ¬ space_then_word "".
Proof. by intros ([|x a] & c & b & H & _). Qed.

Lemma space_then_word_cons (c : ascii) (s : string) :
  space_then_word (String c s) ↔
    (isspace c = true ∧ has_nonspace s) ∨ space_then_word s.
Proof.
  split.
  - intros ([|x a] & d & b & H & Hd & Hb); injection H as -> H.
    + left. by subst.
    + right. by exists a, d, b.
  - intros [[Hc Hs] | (a & d & b & -> & Hd & Hb)].
    + by exists "", c, s.
    + by exists (String c a), d, b.
Qed.

Lemma has_nonspace_app_r (a b : string) :
  has_nonspace b → has_nonspace (a +:+ b).
Proof.
  intros Hb. induction a as [|x a IH]; [done |].
  rewrite app_cons. apply has_nonspace_cons. by right.
Qed.

Lemma space_then_word_has_nonspace (s : string) :
  space_then_word s → has_nonspace s.
Proof.
  intros (a & c & b & -> & _ & Hb).
  apply has_nonspace_app_r, has_nonspace_cons. by right.
Qed.

Lemma internal_whitespace_empty : ¬ internal_whitespace "".
Proof. by intros ([|x a] & c & b & H & _). Qed.

Lemma internal_whitespace_cons (c : ascii) (s : string) :
  internal_whitespace (String c s) ↔
    (isspace c = false ∧ space_then_word s) ∨ internal_whitespace s.
Proof.
  split.
  - intros ([|x a] & d & b & H & Ha & Hd & Hb).
    { by apply has_nonspace_empty in Ha. }
    injection H as -> H.
    apply has_nonspace_cons in Ha as [Hc | Ha].
    + left. split; [done |]. by exists a, d, b.
    + right. by exists a, d, b.
  - intros [[Hc (a & d & b & -> & Hd & Hb)] | (a & d & b & -> & Ha & Hd & Hb)].
    + exists (String c a), d, b. repeat split; try done.
      apply has_nonspace_cons. by left.
    + exists (String c a), d, b. repeat split; try done.
      apply has_nonspace_cons. by right.
Qed.

Lemma internal_whitespace_space_then_word (s : string) :
  internal_whitespace s → space_then_word s.
Proof. intros (a & c & b & -> & _ & Hc & Hb). by exists a, c, b. Qed.

Lemma words_from_true_pos (s : string) : 1 ≤ words_from true s.
Proof.
  induction s as [|c s IH]; simpl; [lia |]. destruct (isspace c); lia.
Qed.

Lemma words_from_false_pos (s : string) :
  1 ≤ words_from false s ↔ has_nonspace s.
Proof.
  induction s as [|c s IH]; simpl.
  - split; [lia | intros H; by apply has_nonspace_empty in H].
  - rewrite has_nonspace_cons. destruct (isspace c); simpl.
    + rewrite IH. split; [by right | by intros [? | ?]].
    + pose proof (words_from_true_pos s). split; [by left | done].
Qed.

Lemma words_from_true_two (s : string) :
  2 ≤ words_from true s ↔ space_then_word s.
Proof.
  induction s as [|c s IH]; simpl.
  - split; [lia | intros H; by apply space_then_word_empty in H].
  - rewrite space_then_word_cons. destruct (isspace c) eqn:Hc.
    + pose proof (words_from_false_pos s) as Hpos.
      pose proof (space_then_word_has_nonspace s) as Hsub.
      split.
      * intros H. left. split; [done |]. apply Hpos. lia.
      * intros [[_ H] | H]; [| apply Hsub in H]; apply Hpos in H; lia.
    + rewrite IH. split; [by right | by intros [[? _] | ?]].
Qed.

Lemma words_from_false_two (s : string) :
  2 ≤ words_from false s ↔ internal_whitespace s.
Proof.
  induction s as [|c s IH]; simpl.
  - split; [lia | intros H; by apply internal_whitespace_empty in H].
  - rewrite internal_whitespace_cons. destruct (isspace c) eqn:Hc; simpl.
    + rewrite IH. split; [by right | by intros [[? _] | ?]].
    + rewrite words_from_true_two.
      pose proof (internal_whitespace_space_then_word s) as Hsub.
      split; [by left | intros [[_ ?] | ?]; auto].
Qed.

(** [len(kw.split()) > 1] says that [kw] has internal whitespace. *)
Lemma split_internal_whitespace (kw : string) :
  1 < length (split kw) ↔ internal_whitespace kw.
Proof. rewrite length_split. apply words_from_false_two. Qed.

(** The final filter keeps a term unless it is at most three characters
    long and has no internal whitespace. *)
Lemma long_enough_iff (kw : string) :
  long_enough kw ↔ ¬ (String.length kw ≤ 3 ∧ ¬ internal_whitespace kw).
Proof.
  unfold long_enough. rewrite <- split_internal_whitespace.
  split.
  - intros [H | H] [Hlen Hno]; [by apply Hno | lia].
  - intros H. destruct (decide (1 < length (split kw))); [by left |].
    right. destruct (decide (3 < String.length kw)); [done |].
    exfalso. apply H. split; [lia | done].
Qed.

End Words.

(** ** The keyword extractor *)

Section Extractor.

Lemma elem_of_found_skills (resume_text kw : string) :
  kw ∈ found_skills resume_text ↔
    kw ∈ tech_skills ∧ occurs (lower kw) (lower resume_text).
Proof.
  unfold found_skills. rewrite <- str_in_spec.
  assert (Hgen : ∀ (skills : list string) (found : gset string),
    kw ∈ foldl (λ found skill,
                  if str_in (lower skill) (lower resume_text)
                  then found ∪ {[skill]} else found) found skills
    ↔ kw ∈ found
      ∨ (kw ∈ skills ∧ str_in (lower kw) (lower resume_text) = true)).
  { induction skills as [|skill skills IH]; intros found; simpl.
    - rewrite elem_of_nil. tauto.
    - rewrite IH, elem_of_cons.
      destruct (str_in (lower skill) (lower resume_text)) eqn:E.
      + rewrite elem_of_union, elem_of_singleton.
        split; [intros [[? | ->] | [? ?]] | intros [? | [[-> | ?] ?]]]; auto.
      + split; [intros [? | [? ?]] | intros [? | [[-> | ?] ?]]];
          auto; congruence. }
  rewrite Hgen, elem_of_empty. tauto.
Qed.

Lemma elem_of_extract (f : string → list Spacy.Entity)
    (resume_text kw : string) :
  kw ∈ extract_keywords_from_resume (Some f) resume_text ↔
    (kw ∈ general_keywords (f resume_text)
     ∨ (kw ∈ tech_skills ∧ occurs (lower kw) (lower resume_text)))
    ∧ long_enough kw.
Proof.
  unfold extract_keywords_from_resume.
  rewrite list_elem_of_filter, elem_of_elements, elem_of_list_to_set.
  rewrite elem_of_app, elem_of_elements, elem_of_found_skills. tauto.
Qed.

Lemma nonempty_elem_of {A} (l : list A) : l ≠ [] ↔ ∃ x, x ∈ l.
Proof.
  destruct l as [|x l].
  - split; [done | intros [x Hx]; by apply elem_of_nil in Hx].
  - split; [intros _; exists x; apply elem_of_cons; by left | done].
Qed.

End Extractor.

(** C1, as the code has it. Without the spaCy model the extractor returns
    the fixed two-element fallback list. With the model, the result is
    non-empty exactly when some retained entity, or some curated skill
    occurring in the text, passes the final length filter. *)
Theorem extract_keywords_nonempty_iff (resume_text : string) :
  extract_keywords_from_resume None resume_text = ["Fallback"; "NLP Error"]
  ∧ (∀ f,
       extract_keywords_from_resume (Some f) resume_text ≠ [] ↔
         (∃ kw,
            (kw ∈ general_keywords (f resume_text)
             ∨ (kw ∈ tech_skills ∧ occurs (lower kw) (lower resume_text)))
            ∧ long_enough kw)).
Proof.
  split; [done |]. intros f. rewrite nonempty_elem_of.
  split; intros [kw H]; exists kw; by apply elem_of_extract.
Qed.

(** C1 fails with the model loaded: the empty text, in which spaCy finds no
    entity, yields no keyword at all. *)
Lemma extract_keywords_empty :
  extract_keywords_from_resume (Some (λ _, [])) "" = [].
Proof. vm_compute. reflexivity. Qed.

(** C7, as the code has it. A term is in the extractor's result exactly when
    it is a retained entity or a curated skill occurring case-insensitively
    in the text, and it is not both at most three characters long and free
    of internal whitespace. *)
Theorem extract_keywords_membership (f : string → list Spacy.Entity)
    (resume_text kw : string) :
  kw ∈ extract_keywords_from_resume (Some f) resume_text ↔
    (kw ∈ general_keywords (f resume_text)
     ∨ (kw ∈ tech_skills ∧ occurs (lower kw) (lower resume_text)))
    ∧ ¬ (String.length kw ≤ 3 ∧ ¬ internal_whitespace kw).
Proof. rewrite elem_of_extract. by rewrite long_enough_iff. Qed.

(** C7 fails for the curated skills of three letters: "SQL" occurs in the
    text and is missing from the result. *)
Lemma short_skill_dropped :
  "SQL" ∈ tech_skills
  ∧ occurs (lower "SQL") (lower "Experienced in SQL and Python")
  ∧ ("SQL" ∉ extract_keywords_from_resume (Some (λ _, []))
               "Experienced in SQL and Python")
  ∧ ("Python" ∈ extract_keywords_from_resume (Some (λ _, []))
                  "Experienced in SQL and Python").
Proof.
  assert (Hrun : extract_keywords_from_resume (Some (λ _, []))
                   "Experienced in SQL and Python" = ["Python"])
    by (vm_compute; reflexivity).
  rewrite Hrun. split; [| split; [| split]].
  - by_evaluation.
  - by exists "experienced in ", " and python".
  - by_evaluation.
  - by_evaluation.
Qed.

(** ** The scrape coordinator *)

Lemma passes_iff (text : string) :
  any (λ word, str_in word text) hiring_words && is_recent_job_posting text
  = true ↔ passes text.
Proof.
  unfold passes. rewrite andb_true_iff, any_spec.
  split; intros [(word & Hw & Ho) Hr]; (split; [| done]); exists word;
    (split; [done |]); by apply str_in_spec.
Qed.

Section Coordinator.

Variable env : Env.

Lemma accepted_sublist (h : list event) (run : search_run) :
  accepted env h run `sublist_of` yielded run.
Proof.
  revert h. induction run as [url rest IH| |e]; intros h; simpl;
    [| constructor..].
  destruct (get env h url) as [page|e].
  - destruct (_ && _); by constructor.
  - by constructor.
Qed.

(** An accepted URL had a page that was fetched and passes. *)
Lemma accepted_elem (h : list event) (run : search_run) (u : string) :
  u ∈ accepted env h run →
  ∃ h' page, get env h' u = PageText page ∧ passes (lower page).
Proof.
  revert h. induction run as [url rest IH| |e]; intros h; simpl;
    [| by intros ?%elem_of_nil..].
  destruct (get env h url) as [page|e] eqn:Hget; [| by apply IH].
  destruct (_ && _) eqn:E; [| by apply IH].
  intros [-> | Hu]%elem_of_cons; [| by eapply IH].
  exists h, page. split; [done |]. by apply passes_iff.
Qed.

Lemma scrape_url_history (keyword url : string) (st : State) :
  history (scrape_url env keyword url st) = history st ++ [EvGet url].
Proof.
  unfold scrape_url. destruct (get env (history st) url) as [page|[| |]];
    [| done..].
  destruct (_ && _); [| done].
  by destruct (results_by_keyword st !! keyword).
Qed.

(** One URL: the keyword's list grows by the URL when its page passes, and
    nothing else changes. *)
Lemma scrape_url_results (keyword url : string) (st : State)
    (urls : list string) :
  results_by_keyword st !! keyword = Some urls →
  results_by_keyword (scrape_url env keyword url st)
  = <[keyword := urls ++ accepted env (history st) (Yield url StopIteration)]>
      (results_by_keyword st).
Proof.
  intros Hk. unfold scrape_url. simpl.
  destruct (get env (history st) url) as [page|[| |]]; simpl;
    rewrite ?app_nil_r, ?(insert_id _ _ _ Hk); try done.
  destruct (_ && _); simpl; rewrite ?app_nil_r, ?(insert_id _ _ _ Hk);
    [| done].
  by rewrite Hk.
Qed.

Lemma scrape_urls_history (keyword : string) (run : search_run) (st : State) :
  history (scrape_urls env keyword run st)
  = history st ++ (EvGet <$> yielded run).
Proof.
  revert st. induction run as [url rest IH| |e]; intros st; simpl;
    rewrite ?app_nil_r; [| done..].
  rewrite IH, scrape_url_history. by rewrite <- app_assoc.
Qed.

Lemma accepted_yield (h : list event) (url : string) (rest : search_run) :
  accepted env h (Yield url rest)
  = accepted env h (Yield url StopIteration)
    ++ accepted env (h ++ [EvGet url]) rest.
Proof.
  simpl. destruct (get env h url) as [page|e]; [| done].
  by destruct (_ && _).
Qed.

(** The inner loop: the keyword's list grows by the accepted URLs of the
    run, up to where the run ends or raises. *)
Lemma scrape_urls_results (keyword : string) (run : search_run) (st : State)
    (urls : list string) :
  results_by_keyword st !! keyword = Some urls →
  results_by_keyword (scrape_urls env keyword run st)
  = <[keyword := urls ++ accepted env (history st) run]>
      (results_by_keyword st).
Proof.
  revert st urls. induction run as [url rest IH| |e]; intros st urls Hk;
    [| simpl; by rewrite app_nil_r, (insert_id _ _ _ Hk)..].
  change (scrape_urls env keyword (Yield url rest) st)
    with (scrape_urls env keyword rest (scrape_url env keyword url st)).
  pose proof (scrape_url_results keyword url st urls Hk) as Hone.
  rewrite (IH _ (urls ++ accepted env (history st) (Yield url StopIteration))).
  - rewrite Hone, insert_insert_eq, scrape_url_history.
    by rewrite (accepted_yield _ url rest), <- app_assoc.
  - rewrite Hone. apply lookup_insert_eq.
Qed.

Lemma scrape_keyword_results (st : State) (keyword : string) :
  results_by_keyword (scrape_keyword env st keyword)
  = <[keyword := accepted env (history st ++ [EvSearch (keyword +:+ " job")])
                   (search env (history st) (keyword +:+ " job"))]>
      (results_by_keyword st).
Proof.
  unfold scrape_keyword.
  rewrite (scrape_urls_results _ _ _ []); simpl.
  - apply insert_insert_eq.
  - apply lookup_insert_eq.
Qed.

Lemma scrape_keyword_history (st : State) (keyword : string) :
  history (scrape_keyword env st keyword)
  = history st ++ EvSearch (keyword +:+ " job")
      :: (EvGet <$> yielded (search env (history st) (keyword +:+ " job"))).
Proof.
  unfold scrape_keyword. rewrite scrape_urls_history. simpl.
  by rewrite <- app_assoc.
Qed.

(** The outer loop, from any state. *)
Lemma loop_dom (keywords : list string) (st : State) :
  dom (results_by_keyword (foldl (scrape_keyword env) st keywords))
  = dom (results_by_keyword st) ∪ list_to_set keywords.
Proof.
  revert st. induction keywords as [|k ks IH]; intros st; simpl.
  - by rewrite (right_id_L ∅ (∪)).
  - rewrite IH, scrape_keyword_results, dom_insert_L.
    by rewrite (comm_L (∪) {[k]}), (assoc_L (∪)).
Qed.

Lemma loop_other (keywords : list string) (st : State) (k : string) :
  k ∉ keywords →
  results_by_keyword (foldl (scrape_keyword env) st keywords) !! k
  = results_by_keyword st !! k.
Proof.
  revert st. induction keywords as [|k' ks IH]; intros st Hk; simpl; [done |].
  apply not_elem_of_cons in Hk as [Hne Hk].
  rewrite IH, scrape_keyword_results by done.
  by apply lookup_insert_ne.
Qed.

Lemma loop_history (keywords : list string) (st : State) :
  ∃ added,
    history (foldl (scrape_keyword env) st keywords) = history st ++ added
    ∧ Forall fetching added
    ∧ ∀ k, k ∈ keywords → EvSearch (k +:+ " job") ∈ added.
Proof.
  revert st. induction keywords as [|k ks IH]; intros st; simpl.
  - exists []. rewrite app_nil_r. split; [done |]. split; [done |].
    intros k Hk. by apply elem_of_nil in Hk.
  - destruct (IH (scrape_keyword env st k)) as (added & Hh & Hf & Hs).
    rewrite scrape_keyword_history in Hh.
    eexists. split; [by rewrite Hh, <- app_assoc |]. split.
    + apply Forall_app. split; [| done].
      constructor; [done |]. apply Forall_fmap. by apply Forall_true.
    + intros k' [-> | Hk']%elem_of_cons.
      * apply elem_of_app. left. apply elem_of_cons. by left.
      * apply elem_of_app. right. by apply Hs.
Qed.

(** Every list in the result was built by one keyword's run. *)
Lemma loop_lookup (keywords : list string) (st : State) (k : string)
    (urls : list string) :
  results_by_keyword (foldl (scrape_keyword env) st keywords) !! k = Some urls →
  results_by_keyword st !! k = Some urls
  ∨ ∃ h, urls = accepted env (h ++ [EvSearch (k +:+ " job")])
                  (search env h (k +:+ " job")).
Proof.
  revert st. induction keywords as [|k' ks IH]; intros st; simpl; [by left |].
  intros [H | H]%IH; [| by right].
  rewrite scrape_keyword_results in H.
  destruct (decide (k' = k)) as [-> | Hne].
  - rewrite lookup_insert_eq in H. injection H as <-. right. by eexists.
  - rewrite lookup_insert_ne in H by done. by left.
Qed.

Lemma fetching_no_release (added : list event) :
  Forall fetching added → releases added = 0 ∧ acquisitions added = 0.
Proof.
  unfold releases, acquisitions.
  induction 1 as [|e added He _ [IH1 IH2]]; [done |].
  destruct e; try done; simpl in *; by rewrite ?IH1, ?IH2.
Qed.

End Coordinator.

(** C2, as the code has it. When the browser driver starts, the returned
    map has exactly the given keywords as its keys, whatever the searches
    and fetches do; when the driver fails to start, the map is empty. *)
Theorem scrape_jobs_keys (env : Env) (keywords : list string) (h : list event) :
  dom (scrape_jobs env keywords h).1
  = if chrome env h then list_to_set keywords else ∅.
Proof.
  unfold scrape_jobs, scrape_loop. destruct (chrome env h); simpl.
  - rewrite loop_dom. simpl. by rewrite dom_empty_L, (left_id_L ∅ (∪)).
  - apply dom_empty_L.
Qed.

(** C2 fails when the browser driver cannot be started: the keyword has no
    entry in the returned map. *)
Lemma scrape_jobs_no_browser :
  chrome (world false flaky_search fresh_posting) [] = false
  ∧ (scrape_jobs (world false flaky_search fresh_posting) ["Python"] []).1
      !! "Python" = None.
Proof. split; [done |]. vm_compute. reflexivity. Qed.

(** On the runs that return, the events the coordinator adds hold one
    release of the driver for each acquisition: with a driver started there
    is exactly one release and it is the last event, whatever exceptions the
    handlers took; with no driver started there is none to release. *)
Lemma returning_run_releases_once (env : Env) (keywords : list string)
    (h : list event) :
  ∃ added,
    (scrape_jobs env keywords h).2 = h ++ added
    ∧ acquisitions added = (if chrome env h then 1 else 0)
    ∧ releases added = acquisitions added
    ∧ last added = Some (if chrome env h then EvQuit else EvChrome false).
Proof.
  unfold scrape_jobs, scrape_loop. destruct (chrome env h); simpl.
  - destruct (loop_history env keywords
                {| results_by_keyword := ∅; history := h ++ [EvChrome true] |})
      as (added & Hh & Hf & _).
    simpl in Hh. apply fetching_no_release in Hf as [Hrel Hacq].
    exists (EvChrome true :: added ++ [EvQuit]).
    split; [by rewrite Hh, <- !app_assoc |].
    unfold releases, acquisitions in *.
    rewrite app_comm_cons, last_snoc, !count_occ_app. simpl.
    rewrite Hrel, Hacq. by repeat split.
  - by exists [EvChrome false].
Qed.

Section Interruptible.

Variables (env : Env) (intr : Interrupts).

(** A run that no raise leaves is the run [scrape_jobs] describes. *)
Lemma scrape_url_returns (keyword url : string) (st st' : State) :
  scrape_url_interruptible env intr keyword url st = (st', None) →
  st' = scrape_url env keyword url st.
Proof.
  unfold scrape_url_interruptible.
  destruct (intr (history st) AtGet); [done |].
  destruct (get env (history st) url); intros H; by injection H.
Qed.

Lemma scrape_urls_returns (keyword : string) (run : search_run)
    (st st' : State) :
  scrape_urls_interruptible env intr keyword run st = (st', None) →
  st' = scrape_urls env keyword run st.
Proof.
  revert st. induction run as [url rest IH| |e]; intros st; simpl;
    destruct (intr (history st) AtNext); try done.
  - destruct (scrape_url_interruptible env intr keyword url st)
      as [st1 [e|]] eqn:Hurl; [done |].
    apply scrape_url_returns in Hurl as ->. apply IH.
  - by intros [= <-].
  - intros H. by injection H.
Qed.

Lemma scrape_keyword_returns (st st' : State) (keyword : string) :
  scrape_keyword_interruptible env intr st keyword = (st', None) →
  st' = scrape_keyword env st keyword.
Proof.
  unfold scrape_keyword_interruptible, scrape_keyword.
  destruct (intr (history st) AtKeyword); [done |].
  apply scrape_urls_returns.
Qed.

Lemma scrape_loop_returns (keywords : list string) (st st' : State) :
  scrape_loop_interruptible env intr keywords st = (st', None) →
  st' = foldl (scrape_keyword env) st keywords.
Proof.
  revert st. induction keywords as [|k ks IH]; intros st; simpl.
  - by intros [= <-].
  - destruct (scrape_keyword_interruptible env intr st k)
      as [st1 [e|]] eqn:Hk; [done |].
    apply scrape_keyword_returns in Hk as ->. apply IH.
Qed.

Lemma scrape_jobs_returns (keywords : list string) (h h' : list event)
    (results : gmap string (list string)) :
  scrape_jobs_interruptible env intr keywords h = (Returned results, h') →
  scrape_jobs env keywords h = (results, h').
Proof.
  unfold scrape_jobs_interruptible, scrape_jobs, scrape_loop.
  destruct (intr h AtChrome); [done |].
  destruct (chrome env h); [| by intros [= <- <-]].
  destruct (scrape_loop_interruptible _ _ _ _) as [st [e|]] eqn:Hloop; [done |].
  apply scrape_loop_returns in Hloop as ->. by intros [= <- <-].
Qed.

End Interruptible.

(** Conversely, with no raise arriving the coordinator returns, and what
    it returns is what [scrape_jobs] describes. *)
Lemma scrape_urls_undisturbed (env : Env) (keyword : string)
    (run : search_run) (st : State) :
  scrape_urls_interruptible env undisturbed keyword run st
  = (scrape_urls env keyword run st, None).
Proof.
  revert st. induction run as [url rest IH| |e]; intros st; simpl; [| done..].
  unfold scrape_url_interruptible. simpl.
  destruct (get env (history st) url); apply IH.
Qed.

Lemma scrape_loop_undisturbed (env : Env) (keywords : list string)
    (st : State) :
  scrape_loop_interruptible env undisturbed keywords st
  = (foldl (scrape_keyword env) st keywords, None).
Proof.
  revert st. induction keywords as [|k ks IH]; intros st; simpl; [done |].
  unfold scrape_keyword_interruptible. simpl.
  rewrite scrape_urls_undisturbed. apply IH.
Qed.

Lemma scrape_jobs_undisturbed (env : Env) (keywords : list string)
    (h : list event) :
  scrape_jobs_interruptible env undisturbed keywords h
  = (Returned (scrape_jobs env keywords h).1, (scrape_jobs env keywords h).2).
Proof.
  unfold scrape_jobs_interruptible, scrape_jobs, scrape_loop. simpl.
  destruct (chrome env h); [| done]. by rewrite scrape_loop_undisturbed.
Qed.

(** C9, as the code has it. Whenever the coordinator returns, be it after
    a normal run or after searches and page loads raised exceptions that its
    handlers took, the events it added hold one release of the driver for
    each acquisition: with a driver started there is exactly one release and
    it is the last event; with no driver started there is none to release. *)
Theorem driver_released_on_return (env : Env) (intr : Interrupts)
    (keywords : list string) (h h' : list event)
    (results : gmap string (list string)) :
  scrape_jobs_interruptible env intr keywords h = (Returned results, h') →
  ∃ added,
    h' = h ++ added
    ∧ acquisitions added = (if chrome env h then 1 else 0)
    ∧ releases added = acquisitions added
    ∧ last added = Some (if chrome env h then EvQuit else EvChrome false).
Proof.
  intros Hrun%scrape_jobs_returns.
  destruct (returning_run_releases_once env keywords h)
    as (added & Hh & Hrest).
  rewrite Hrun in Hh. by exists added.
Qed.

Lemma driver_released_on_return_witness :
  scrape_jobs_interruptible sample_world undisturbed ["Rust"; "Go"] []
  = (Returned {["Rust" := ["https://jobs.example/rust"];
                "Go" := ["https://jobs.example/go"]]},
     [EvChrome true;
      EvSearch "Rust job"; EvGet "https://jobs.example/rust";
      EvSearch "Go job"; EvGet "https://jobs.example/go";
      EvQuit])
  ∧ ∃ added,
      [EvChrome true;
       EvSearch "Rust job"; EvGet "https://jobs.example/rust";
       EvSearch "Go job"; EvGet "https://jobs.example/go";
       EvQuit] = [] ++ added
      ∧ releases added = acquisitions added
      ∧ last added = Some EvQuit.
Proof.
  assert (Hrun :
    scrape_jobs_interruptible sample_world undisturbed ["Rust"; "Go"] []
    = (Returned {["Rust" := ["https://jobs.example/rust"];
                  "Go" := ["https://jobs.example/go"]]},
       [EvChrome true;
        EvSearch "Rust job"; EvGet "https://jobs.example/rust";
        EvSearch "Go job"; EvGet "https://jobs.example/go";
        EvQuit])) by (vm_compute; reflexivity).
  split; [exact Hrun |].
  destruct (driver_released_on_return _ _ _ _ _ _ Hrun)
    as (added & Hh & _ & Hrel & Hlast).
  exists added. split; [exact Hh |]. split; [exact Hrel | exact Hlast].
Defined.

(** C9 fails when a raise that no handler takes leaves the coordinator:
    Ctrl-C during the load of the first URL ends the call with the driver
    started and never released. *)
Lemma driver_leaked_on_interrupt :
  scrape_jobs_interruptible sample_world interrupted_load ["Go"] []
  = (Propagated KeyboardInterrupt, [EvChrome true; EvSearch "Go job"])
  ∧ acquisitions [EvChrome true; EvSearch "Go job"] = 1
  ∧ releases [EvChrome true; EvSearch "Go job"] = 0.
Proof. split; [vm_compute; reflexivity | by split]. Qed.

(** C6. While a keyword is being processed, a candidate URL is appended to
    that keyword's list exactly when its page was fetched and the lower-cased
    page text contains one of "apply now", "vacancy", "hiring", "job",
    "careers" and is classified as recent. Otherwise, and so whenever the
    fetch raises, the map is left as it was. No other keyword's list is
    touched. Hence every URL in the returned map had a page that was fetched
    and passes both tests: a URL whose fetches all fail is not in it. *)
Theorem scrape_url_accepts (env : Env) (keyword url : string) (st : State)
    (urls : list string) :
  results_by_keyword st !! keyword = Some urls →
  let after := results_by_keyword (scrape_url env keyword url st) in
  (after !! keyword = Some (urls ++ [url]) ↔
     ∃ page, get env (history st) url = PageText page ∧ passes (lower page))
  ∧ (after !! keyword = Some (urls ++ [url]) ∨ after = results_by_keyword st)
  ∧ (∀ k, k ≠ keyword → after !! k = results_by_keyword st !! k)
  ∧ (∀ keywords h k found u,
       (scrape_jobs env keywords h).1 !! k = Some found →
       u ∈ found →
       ∃ h' page, get env h' u = PageText page ∧ passes (lower page)).
Proof.
  intros Hk after.
  assert (Hafter : after
    = <[keyword := urls ++ accepted env (history st) (Yield url StopIteration)]>
        (results_by_keyword st))
    by by apply scrape_url_results.
  assert (Hsame : <[keyword := urls ++ []]> (results_by_keyword st)
                  = results_by_keyword st)
    by (rewrite app_nil_r; by apply insert_id).
  assert (Hneq : urls ++ [] ≠ urls ++ [url])
    by (intros H; by apply app_inv_head in H).
  split; [| split; [| split]].
  - rewrite Hafter, lookup_insert_eq. simpl.
    destruct (get env (history st) url) as [page|e].
    + destruct (_ && _) eqn:E.
      * split; [intros _; exists page | done].
        split; [done | by apply passes_iff].
      * split; [intros [=H]; by destruct Hneq |].
        intros (page' & [= <-] & Hp%passes_iff). congruence.
    + split; [intros [=H]; by destruct Hneq | by intros (page & ? & _)].
  - rewrite Hafter. simpl.
    destruct (get env (history st) url) as [page|e]; [| by right].
    destruct (_ && _); [left; apply lookup_insert_eq | by right].
  - intros k Hne. rewrite Hafter. by apply lookup_insert_ne.
  - intros keywords h k found u. unfold scrape_jobs, scrape_loop.
    destruct (chrome env h); simpl; [| done].
    intros [H | [h' ->]]%loop_lookup Hu; [done |].
    by eapply accepted_elem.
Qed.

Lemma scrape_url_accepts_witness :
  results_by_keyword sample_state !! "Go" = Some []
  ∧ results_by_keyword
      (scrape_url sample_world "Go" "https://jobs.example/go" sample_state)
      !! "Go"
    = Some ["https://jobs.example/go"].
Proof.
  assert (Hk : results_by_keyword sample_state !! "Go" = Some [])
    by (vm_compute; reflexivity).
  split; [exact Hk |].
  destruct (scrape_url_accepts sample_world "Go" "https://jobs.example/go"
              sample_state [] Hk) as [Hiff _].
  apply Hiff. exists "We are hiring - posted 2 days ago". split; [done |].
  apply passes_iff. vm_compute. reflexivity.
Defined.




(** C5, as the code has it. Let the search for keyword [k] raise, and let
    [k] not come again later in the list. Then the list of [k] in the
    returned map holds the URLs accepted before the search raised, which is
    the empty list when the search raised before yielding anything; and
    every keyword after [k] is still searched and has its entry. *)
Theorem search_failure_is_local (env : Env) (before : list string)
    (k : string) (later : list string) (h : list event) :
  chrome env h = true →
  k ∉ later →
  let st := scrape_loop env before h in
  let run := search env (history st) (k +:+ " job") in
  raises run →
  let out := scrape_jobs env (before ++ k :: later) h in
  out.1 !! k
  = Some (accepted env (history st ++ [EvSearch (k +:+ " job")]) run)
  ∧ (yielded run = [] → out.1 !! k = Some [])
  ∧ (∀ k', k' ∈ later →
       EvSearch (k' +:+ " job") ∈ out.2 ∧ is_Some (out.1 !! k')).
Proof.
  intros Hchrome Hlater st run Hraises out.
  assert (Hout1 : out.1 = results_by_keyword
            (foldl (scrape_keyword env) (scrape_keyword env st k) later)).
  { unfold out, scrape_jobs, scrape_loop. rewrite Hchrome. simpl.
    by rewrite foldl_app. }
  assert (Hout2 : out.2 = history
            (foldl (scrape_keyword env) (scrape_keyword env st k) later)
            ++ [EvQuit]).
  { unfold out, scrape_jobs, scrape_loop. rewrite Hchrome. simpl.
    by rewrite foldl_app. }
  assert (Hk : out.1 !! k
    = Some (accepted env (history st ++ [EvSearch (k +:+ " job")]) run)).
  { rewrite Hout1, loop_other, scrape_keyword_results by done.
    apply lookup_insert_eq. }
  split; [exact Hk |]. split.
  - intros Hnone. rewrite Hk. f_equal.
    pose proof (accepted_sublist env
      (history st ++ [EvSearch (k +:+ " job")]) run) as Hsub.
    rewrite Hnone in Hsub. by apply sublist_nil_r in Hsub.
  - intros k' Hk'. split.
    + destruct (loop_history env later (scrape_keyword env st k))
        as (added & Hh & _ & Hs).
      rewrite Hout2, Hh. apply elem_of_app. left. apply elem_of_app. right.
      by apply Hs.
    + apply elem_of_dom. rewrite Hout1, loop_dom.
      apply elem_of_union. right. by apply elem_of_list_to_set.
Qed.

Lemma search_failure_is_local_witness :
  chrome sample_world [] = true
  ∧ ("Rust" ∉ ["Go"])
  ∧ raises (search sample_world (history (scrape_loop sample_world [] []))
              ("Rust" +:+ " job"))
  ∧ (scrape_jobs sample_world ["Rust"; "Go"] []).1 !! "Rust"
    = Some ["https://jobs.example/rust"]
  ∧ EvSearch ("Go" +:+ " job") ∈ (scrape_jobs sample_world ["Rust"; "Go"] []).2
  ∧ is_Some ((scrape_jobs sample_world ["Rust"; "Go"] []).1 !! "Go").
Proof.
  assert (Hnot : "Rust" ∉ ["Go"]) by by_evaluation.
  assert (Hraises :
    raises (search sample_world (history (scrape_loop sample_world [] []))
              ("Rust" +:+ " job")))
    by exact I.
  destruct (search_failure_is_local sample_world [] "Rust" ["Go"] [] eq_refl
              Hnot Hraises) as (Hk & _ & Hlater).
  destruct (Hlater "Go") as [Hsearch Hsome].
  { apply elem_of_cons. by left. }
  split; [reflexivity |]. split; [exact Hnot |]. split; [exact Hraises |].
  split; [exact Hk |]. split; [exact Hsearch | exact Hsome].
Defined.

(** C5 fails when the search raises after it has yielded a URL whose page
    passes: the keyword's list keeps that URL and is not empty. *)
Lemma search_raises_after_accepting :
  raises (search sample_world [EvChrome true] "Rust job")
  ∧ (scrape_jobs sample_world ["Rust"; "Go"] []).1 !! "Rust"
    = Some ["https://jobs.example/rust"].
Proof. split; [exact I |]. vm_compute. reflexivity. Qed.

(** ** The upload route *)

(** C3. When the file name ends in pdf or docx (in any letter case) and the
    document cannot be decoded, the route answers at once with status
    "error" and a message that names PDF for a pdf and DOCX for a docx
    document, and nothing of the pipeline has run: no extraction, no
    browser, no search, no fetch, no post. A plain-text upload that cannot
    be decoded gets neither message: its exception leaves the route. *)
Theorem decode_failure_is_terminal (env : Env) (file : UploadFile) :
  let file_type := lower (split_last "." (filename file)) in
  (file_type = "pdf" ∧ pdf_pages env (file_content file) = None)
  ∨ (file_type = "docx" ∧ docx_text env (file_content file) = None) →
  ∃ message,
    recommend_jobs env file = (Return "error" message, [])
    ∧ (message = "Failed to parse PDF content." ↔ file_type = "pdf")
    ∧ (message = "Failed to parse DOCX content." ↔ file_type = "docx")
    ∧ (∀ other,
         lower (split_last "." (filename other)) ∉ ["pdf"; "docx"] →
         decode_utf8 env (file_content other) = None →
         recommend_jobs env other = (Uncaught "UnicodeDecodeError", [])).
Proof.
  intros file_type Hfail.
  assert (Hother : ∀ other,
    lower (split_last "." (filename other)) ∉ ["pdf"; "docx"] →
    decode_utf8 env (file_content other) = None →
    recommend_jobs env other = (Uncaught "UnicodeDecodeError", [])).
  { intros other Hext Hdec. unfold recommend_jobs, read_resume.
    rewrite !not_elem_of_cons in Hext. destruct Hext as (Hpdf & Hdocx & _).
    rewrite decide_False, decide_False by done. by rewrite Hdec. }
  unfold recommend_jobs, read_resume. fold file_type.
  destruct Hfail as [[Hext Hdec] | [Hext Hdec]]; rewrite Hext, Hdec.
  - exists "Failed to parse PDF content.". by repeat split.
  - exists "Failed to parse DOCX content.". by repeat split.
Qed.

Lemma decode_failure_is_terminal_witness :
  lower (split_last "." (filename sample_pdf)) = "pdf"
  ∧ pdf_pages sample_world (file_content sample_pdf) = None
  ∧ recommend_jobs sample_world sample_pdf
    = (Return "error" "Failed to parse PDF content.", []).
Proof.
  assert (Hext : lower (split_last "." (filename sample_pdf)) = "pdf")
    by (vm_compute; reflexivity).
  assert (Hdec : pdf_pages sample_world (file_content sample_pdf) = None)
    by reflexivity.
  destruct (decode_failure_is_terminal sample_world sample_pdf
              (or_introl (conj Hext Hdec)))
    as (message & Hreply & Hpdf & _).
  split; [exact Hext |]. split; [exact Hdec |].
  rewrite Hreply. do 2 f_equal. by apply Hpdf.
Defined.

(** * Further properties of the code *)

(** ** More facts about Python strings *)

Section MoreStringFacts.

Lemma lower_char_idem (c : ascii) : lower_char (lower_char c) = lower_char c.
Proof. by destruct c as [[] [] [] [] [] [] [] []]. Qed.

Lemma lower_idem (s : string) : lower (lower s) = lower s.
Proof.
  induction s as [|c s IH]; [done |]. simpl. by rewrite lower_char_idem, IH.
Qed.

Lemma length_lower (s : string) : String.length (lower s) = String.length s.
Proof. induction s as [|c s IH]; [done |]. simpl. by rewrite IH. Qed.

Lemma occurs_length (needle hay : string) :
  occurs needle hay → String.length needle ≤ String.length hay.
Proof. intros (pre & post & ->). rewrite !length_app_str. lia. Qed.

Lemma occurs_embed (needle hay pre post : string) :
  occurs needle hay → occurs needle (pre +:+ hay +:+ post).
Proof.
  intros (a & b & ->). exists (pre +:+ a), (b +:+ post).
  by rewrite !app_assoc_str.
Qed.

(** Only the dot is lower-cased to a dot. *)
Lemma lower_char_dot (c : ascii) : lower_char c = "."%char ↔ c = "."%char.
Proof. destruct c as [[] [] [] [] [] [] [] []]; split; by vm_compute. Qed.

Lemma day_needle_length (n : nat) :
  1 ≤ n ≤ 7 →
  String.length (str_of_nat n +:+ " day") = 5
  ∧ String.length (str_of_nat n +:+ "d") = 2.
Proof.
  intros Hn.
  assert (Hcases : n ∈ [1; 2; 3; 4; 5; 6; 7]).
  { change [1; 2; 3; 4; 5; 6; 7] with (range 1 8). apply elem_of_range. lia. }
  repeat (apply elem_of_cons in Hcases as [-> | Hcases]; [by split |]).
  by apply elem_of_nil in Hcases.
Qed.

End MoreStringFacts.

(** ** More on the recency classifier *)

(** X1. The classifier ignores letter case: it answers the same on a text
    and on its lower-cased form, so the coordinator's lower-casing of the
    page text before the call changes nothing. *)
Theorem is_recent_ignores_case (text : string) :
  is_recent_job_posting (lower text) = is_recent_job_posting text.
Proof. unfold is_recent_job_posting. by rewrite lower_idem. Qed.

(** X2. Text around a recent text never makes it stale: a text classified
    as recent stays so with any text put before and after it. *)
Theorem is_recent_embedded (pre text post : string) :
  is_recent_job_posting text = true →
  is_recent_job_posting (pre +:+ text +:+ post) = true.
Proof.
  rewrite !is_recent_iff, !lower_app.
  intros [H | [H | [H | (n & Hn & [H | H])]]].
  - left. by apply occurs_embed.
  - right. left. by apply occurs_embed.
  - do 2 right. left. by apply occurs_embed.
  - do 3 right. exists n. split; [done |]. left. by apply occurs_embed.
  - do 3 right. exists n. split; [done |]. right. by apply occurs_embed.
Qed.

Lemma is_recent_embedded_witness :
  is_recent_job_posting "2 days ago" = true
  ∧ is_recent_job_posting ("Posted " +:+ "2 days ago" +:+ " - apply") = true.
Proof.
  assert (H : is_recent_job_posting "2 days ago" = true) by reflexivity.
  split; [exact H |].
  exact (is_recent_embedded "Posted " "2 days ago" " - apply" H).
Defined.

(** X3. A text of fewer than two characters, the empty text among them, is
    never classified as recent. *)
Theorem is_recent_needs_two_characters (text : string) :
  String.length text < 2 → is_recent_job_posting text = false.
Proof.
  intros Hlen. destruct (is_recent_job_posting text) eqn:E; [| done].
  exfalso. apply is_recent_iff in E.
  destruct E as [H | [H | [H | (n & Hn & [H | H])]]];
    apply occurs_length in H; rewrite length_lower in H;
    try (simpl in H; lia);
    destruct (day_needle_length n Hn) as [Hday Hd]; lia.
Qed.

Lemma is_recent_needs_two_characters_witness :
  String.length "7" < 2 ∧ is_recent_job_posting "7" = false.
Proof.
  assert (H : String.length "7" < 2) by (simpl; lia).
  split; [exact H |]. exact (is_recent_needs_two_characters "7" H).
Defined.

(** ** More on the keyword extractor *)

Section MoreExtractor.

Lemma extract_NoDup (nlp : Nlp) (resume_text : string) :
  NoDup (extract_keywords_from_resume nlp resume_text).
Proof.
  destruct nlp as [f|]; simpl.
  - apply NoDup_filter, NoDup_elements.
  - apply NoDup_cons. split; [by_evaluation |]. apply NoDup_singleton.
Qed.

Lemma length_lasting_skills : length lasting_skills = 12.
Proof. vm_compute. reflexivity. Qed.

Lemma extract_from_entities_or_lasting (f : string → list Spacy.Entity)
    (resume_text kw : string) :
  kw ∈ extract_keywords_from_resume (Some f) resume_text →
  kw ∈ general_keywords (f resume_text) ++ lasting_skills.
Proof.
  intros [[H | [H _]] Hlong]%elem_of_extract; apply elem_of_app.
  - by left.
  - right. unfold lasting_skills. by apply list_elem_of_filter.
Qed.

End MoreExtractor.

(** X4. The extractor never returns a keyword twice, with the spaCy model
    and without it. *)
Theorem extract_keywords_no_duplicates (nlp : Nlp) (resume_text : string) :
  NoDup (extract_keywords_from_resume nlp resume_text).
Proof. apply extract_NoDup. Qed.

(** X5. With the spaCy model, the extractor returns at most twelve keywords
    more than spaCy found entities: of the sixteen curated skills only
    twelve pass the final filter. *)
Theorem extract_keywords_bound (f : string → list Spacy.Entity)
    (resume_text : string) :
  length (extract_keywords_from_resume (Some f) resume_text)
  ≤ length (f resume_text) + 12.
Proof.
  rewrite <- length_lasting_skills.
  transitivity (length (general_keywords (f resume_text) ++ lasting_skills)).
  - apply submseteq_length, NoDup_submseteq; [apply extract_NoDup |].
    intros kw. apply extract_from_entities_or_lasting.
  - rewrite length_app. unfold general_keywords. rewrite length_fmap.
    pose proof (length_filter
      (λ ent, Spacy.label_ ent ∈ ["ORG"; "GPE"; "PRODUCT"; "JOB"])
      (f resume_text)).
    lia.
Qed.

(** ** More on the scrape coordinator *)

Section MoreCoordinator.

Variable env : Env.

Lemma searches_app (h1 h2 : list event) :
  searches (h1 ++ h2) = searches h1 ++ searches h2.
Proof. apply omap_app. Qed.

Lemma searches_loads (urls : list string) : searches (EvGet <$> urls) = [].
Proof. by induction urls. Qed.

Lemma posts_app (h1 h2 : list event) : posts (h1 ++ h2) = posts h1 ++ posts h2.
Proof. apply omap_app. Qed.

Lemma posts_fetching (added : list event) :
  Forall fetching added → posts added = [].
Proof.
  induction 1 as [|e added He _ IH]; [done |]. by destruct e.
Qed.

Lemma loop_searches (keywords : list string) (st : State) :
  searches (history (foldl (scrape_keyword env) st keywords))
  = searches (history st) ++ ((λ k, k +:+ " job") <$> keywords).
Proof.
  revert st. induction keywords as [|k ks IH]; intros st; simpl.
  - by rewrite app_nil_r.
  - rewrite IH, scrape_keyword_history, searches_app. simpl.
    by rewrite searches_loads, <- app_assoc.
Qed.

Lemma loop_loads (keywords : list string) (st : State) (u : string) :
  EvGet u ∈ history (foldl (scrape_keyword env) st keywords) →
  EvGet u ∈ history st
  ∨ ∃ h k, k ∈ keywords ∧ u ∈ yielded (search env h (k +:+ " job")).
Proof.
  revert st. induction keywords as [|k ks IH]; intros st; simpl; [by left |].
  intros [H | (h & k' & Hk' & Hu)]%IH.
  - rewrite scrape_keyword_history in H.
    apply elem_of_app in H as [H | H]; [by left |]. right.
    apply elem_of_cons in H as [H | H]; [done |].
    apply list_elem_of_fmap in H as (u' & [= ->] & Hu).
    exists (history st), k. split; [apply elem_of_cons; by left | done].
  - right. exists h, k'. split; [apply elem_of_cons; by right | done].
Qed.

Lemma scrape_jobs_posts (keywords : list string) (h : list event) :
  posts (scrape_jobs env keywords h).2 = posts h.
Proof.
  unfold scrape_jobs, scrape_loop. destruct (chrome env h); simpl.
  - destruct (loop_history env keywords
                {| results_by_keyword := ∅; history := h ++ [EvChrome true] |})
      as (added & -> & Hf & _).
    simpl. rewrite !posts_app, (posts_fetching _ Hf). simpl.
    by rewrite !app_nil_r.
  - rewrite posts_app. simpl. by rewrite app_nil_r.
Qed.

Lemma scrape_jobs_searches_from (keywords : list string) (h : list event) :
  searches (scrape_jobs env keywords h).2
  = searches h
    ++ (if chrome env h then (λ k, k +:+ " job") <$> keywords else []).
Proof.
  unfold scrape_jobs, scrape_loop. destruct (chrome env h); simpl.
  - rewrite searches_app, loop_searches. simpl.
    rewrite searches_app. simpl. by rewrite !app_nil_r.
  - rewrite searches_app. simpl. by rewrite !app_nil_r.
Qed.

End MoreCoordinator.

(** X6. The coordinator sends the search engine exactly one query per entry
    of the keyword list, in list order, each the keyword followed by " job",
    whatever the searches and page loads do; it sends none when the browser
    does not start. *)
Theorem scrape_jobs_searches (env : Env) (keywords : list string)
    (h : list event) :
  searches (scrape_jobs env keywords h).2
  = searches h
    ++ (if chrome env h then (λ k, k +:+ " job") <$> keywords else []).
Proof. apply scrape_jobs_searches_from. Qed.

(** X7. The browser loads only what a search yielded: every URL the
    coordinator loads was yielded by the search for one of the keywords. *)
Theorem loaded_urls_were_yielded (env : Env) (keywords : list string)
    (h : list event) (u : string) :
  EvGet u ∈ (scrape_jobs env keywords h).2 →
  EvGet u ∈ h
  ∨ ∃ h' k, k ∈ keywords ∧ u ∈ yielded (search env h' (k +:+ " job")).
Proof.
  unfold scrape_jobs, scrape_loop. destruct (chrome env h); simpl.
  - intros [H | H]%elem_of_app.
    + apply loop_loads in H as [H | H]; [| by right]. simpl in H.
      apply elem_of_app in H as [H | H]; [by left |].
      by apply list_elem_of_singleton in H.
    + by apply list_elem_of_singleton in H.
  - intros [H | H]%elem_of_app; [by left |].
    by apply list_elem_of_singleton in H.
Qed.

Lemma loaded_urls_were_yielded_witness :
  EvGet "https://jobs.example/go" ∈ (scrape_jobs sample_world ["Go"] []).2
  ∧ ∃ h' k,
      k ∈ ["Go"]
      ∧ "https://jobs.example/go"
          ∈ yielded (search sample_world h' (k +:+ " job")).
Proof.
  assert (H : EvGet "https://jobs.example/go"
                ∈ (scrape_jobs sample_world ["Go"] []).2) by by_evaluation.
  split; [exact H |].
  destruct (loaded_urls_were_yielded sample_world ["Go"] []
              "https://jobs.example/go" H) as [Hin | Hyield].
  - by apply elem_of_nil in Hin.
  - exact Hyield.
Defined.

(** X8. One more keyword [k] at the end of the list adds exactly this to
    the loop: one search for [k], then one load of every URL that search
    yields, in order, also after a load that failed and up to where the
    search raises; [k]'s list becomes the accepted URLs of that run in
    the order yielded, replacing an earlier list of [k], and no other
    keyword's list changes. *)
Theorem scrape_loop_next_keyword (env : Env) (keywords : list string)
    (k : string) (h : list event) :
  let st := scrape_loop env keywords h in
  let run := search env (history st) (k +:+ " job") in
  let st' := scrape_loop env (keywords ++ [k]) h in
  history st'
  = history st ++ EvSearch (k +:+ " job") :: (EvGet <$> yielded run)
  ∧ results_by_keyword st'
    = <[k := accepted env (history st ++ [EvSearch (k +:+ " job")]) run]>
        (results_by_keyword st).
Proof.
  intros st run st'. unfold st', scrape_loop. rewrite foldl_app. simpl.
  split; [apply scrape_keyword_history | apply scrape_keyword_results].
Qed.

(** ** More on the upload route *)

Section MoreRoute.

Variable env : Env.


(** The route once the upload is decoded: scrape, post once, reply by the
    status code. *)
Lemma recommend_jobs_decoded (file : UploadFile) (resume_text : string) :
  read_resume env file = inl resume_text →
  let out := scrape_jobs env
               (extract_keywords_from_resume (nlp env) resume_text)
               [EvExtract resume_text] in
  (recommend_jobs env file).2 = out.2 ++ [EvPost out.1]
  ∧ ((∃ message, (recommend_jobs env file).1 = Return "success" message)
     ↔ post env out.2 out.1 = Response 200).
Proof.
  intros Hread out. unfold recommend_jobs. rewrite Hread. fold out.
  destruct out as [fetched_jobs h]. simpl.
  destruct (post env h fetched_jobs) as [status_code|e]; [case_decide |];
    subst; simpl.
  - split; [done |]. split; [done | by eexists].
  - split; [done |]. split; [by intros [message ?] | congruence].
  - split; [done |]. split; [by intros [message ?] | done].
Qed.

End MoreRoute.


(** X10. An upload that could be decoded is followed by exactly one post,
    as the last event, carrying the map the coordinator returned; there is
    no second attempt. An upload that could not be decoded causes no event
    at all. *)
Theorem recommend_jobs_posts_once (env : Env) (file : UploadFile) :
  match read_resume env file with
  | inl resume_text =>
      let out := scrape_jobs env
                   (extract_keywords_from_resume (nlp env) resume_text)
                   [EvExtract resume_text] in
      posts (recommend_jobs env file).2 = [out.1]
      ∧ last (recommend_jobs env file).2 = Some (EvPost out.1)
  | inr _ => (recommend_jobs env file).2 = []
  end.
Proof.
  destruct (read_resume env file) as [resume_text|early] eqn:Hread.
  - intros out.
    destruct (recommend_jobs_decoded env file resume_text Hread) as [-> _].
    fold out. split; [| apply last_snoc].
    rewrite posts_app. unfold out. by rewrite scrape_jobs_posts.
  - unfold recommend_jobs. by rewrite Hread.
Qed.

(** X11. A browser that cannot be started is not reported: the route posts
    the empty map and replies with status "success" exactly when the server
    answers that post with status code 200. *)
Theorem browser_failure_is_not_reported (env : Env) (file : UploadFile)
    (resume_text : string) :
  read_resume env file = inl resume_text →
  chrome env [EvExtract resume_text] = false →
  (recommend_jobs env file).2
  = [EvExtract resume_text; EvChrome false; EvPost ∅]
  ∧ ((∃ message, (recommend_jobs env file).1 = Return "success" message)
     ↔ post env [EvExtract resume_text; EvChrome false] ∅ = Response 200).
Proof.
  intros Hread Hchrome.
  destruct (recommend_jobs_decoded env file resume_text Hread) as [Hh Hiff].
  unfold scrape_jobs in Hh, Hiff. rewrite Hchrome in Hh, Hiff.
  by split.
Qed.

Lemma browser_failure_is_not_reported_witness :
  read_resume (reading_world false "Python developer") sample_txt
  = inl "Python developer"
  ∧ chrome (reading_world false "Python developer")
      [EvExtract "Python developer"] = false
  ∧ (recommend_jobs (reading_world false "Python developer") sample_txt).2
    = [EvExtract "Python developer"; EvChrome false; EvPost ∅]
  ∧ ∃ message,
      (recommend_jobs (reading_world false "Python developer") sample_txt).1
      = Return "success" message.
Proof.
  assert (Hread : read_resume (reading_world false "Python developer")
                    sample_txt = inl "Python developer")
    by (vm_compute; reflexivity).
  destruct (browser_failure_is_not_reported
              (reading_world false "Python developer") sample_txt
              "Python developer" Hread eq_refl) as [Hh Hiff].
  split; [exact Hread |]. split; [reflexivity |]. split; [exact Hh |].
  by apply Hiff.
Defined.

(** X12. Once the upload is decoded and the browser starts, the route
    searches exactly for the extracted keywords, each followed by " job",
    one search per keyword; with no browser it searches for nothing. *)
Theorem recommend_jobs_searches (env : Env) (file : UploadFile)
    (resume_text : string) :
  read_resume env file = inl resume_text →
  searches (recommend_jobs env file).2
  = if chrome env [EvExtract resume_text]
    then (λ k, k +:+ " job")
           <$> extract_keywords_from_resume (nlp env) resume_text
    else [].
Proof.
  intros Hread.
  destruct (recommend_jobs_decoded env file resume_text Hread) as [-> _].
  rewrite searches_app, scrape_jobs_searches_from. simpl.
  by rewrite app_nil_r.
Qed.

Lemma recommend_jobs_searches_witness :
  read_resume (reading_world true "Python developer") sample_txt
  = inl "Python developer"
  ∧ searches
      (recommend_jobs (reading_world true "Python developer") sample_txt).2
    = ["Fallback job"; "NLP Error job"].
Proof.
  assert (Hread : read_resume (reading_world true "Python developer")
                    sample_txt = inl "Python developer")
    by (vm_compute; reflexivity).
  split; [exact Hread |].
  exact (recommend_jobs_searches (reading_world true "Python developer")
           sample_txt "Python developer" Hread).
Defined.

(** ** The type of an upload *)

Section FileType.

Lemma has_sep_iff (sep : ascii) (s : string) :
  existsb (λ d, if ascii_dec d sep then true else false)
          (String.list_ascii_of_string s) = true
  ↔ sep ∈ String.list_ascii_of_string s.
Proof.
  rewrite existsb_exists. split.
  - intros (d & Hd & Heq). apply list_elem_of_In.
    by destruct (ascii_dec d sep) as [<- |].
  - intros H. exists sep. split; [by apply list_elem_of_In |].
    by destruct (ascii_dec sep sep).
Qed.

Lemma split_last_without (sep : ascii) (s : string) :
  sep ∉ String.list_ascii_of_string s → split_last sep s = s.
Proof.
  destruct s as [|c s]; [done |]. simpl. intros [Hc Hs]%not_elem_of_cons.
  destruct (existsb _ _) eqn:E; [by apply has_sep_iff in E |].
  by destruct (ascii_dec c sep).
Qed.

Lemma split_last_after (sep : ascii) (a b : string) :
  sep ∉ String.list_ascii_of_string b →
  split_last sep (a +:+ String sep b) = b.
Proof.
  intros Hb. induction a as [|c a IH].
  - change ("" +:+ String sep b) with (String sep b). simpl.
    destruct (existsb _ _) eqn:E; [by apply has_sep_iff in E |].
    by destruct (ascii_dec sep sep).
  - rewrite app_cons. simpl.
    destruct (existsb _ _) eqn:E; [done |].
    apply not_true_iff_false in E. destruct E. apply has_sep_iff.
    clear IH. induction a as [|d a IH]; simpl.
    + apply elem_of_cons. by left.
    + apply elem_of_cons. by right.
Qed.

Lemma has_sep_lower (s : string) :
  existsb (λ d, if ascii_dec d "."%char then true else false)
          (String.list_ascii_of_string (lower s))
  = existsb (λ d, if ascii_dec d "."%char then true else false)
            (String.list_ascii_of_string s).
Proof.
  induction s as [|c s IH]; [done |]. simpl. rewrite IH. f_equal.
  destruct (ascii_dec c ".") as [-> | Hne]; [done |].
  destruct (ascii_dec (lower_char c) ".") as [Heq | _]; [| done].
  destruct Hne. by apply lower_char_dot.
Qed.

Lemma split_last_lower (s : string) :
  split_last "." (lower s) = lower (split_last "." s).
Proof.
  induction s as [|c s IH]; [done |]. simpl. rewrite has_sep_lower.
  destruct (existsb _ _); [done |].
  destruct (ascii_dec c ".") as [-> | Hne]; [done |].
  destruct (ascii_dec (lower_char c) ".") as [Heq | _]; [| done].
  destruct Hne. by apply lower_char_dot.
Qed.

End FileType.

(** X13. Only what follows the last dot of the file name decides how an
    upload is read: an upload named [stem.ext] is read as one named [ext]
    alone is, and a name without a dot is taken whole as the type. *)
Theorem upload_type_is_last_extension (env : Env) (stem ext : string)
    (content : list Byte.byte) :
  dotless ext →
  read_resume env {| filename := stem +:+ "." +:+ ext; file_content := content |}
  = read_resume env {| filename := ext; file_content := content |}.
Proof.
  intros Hext. unfold read_resume. simpl.
  change ("." +:+ ext) with (String "." ext).
  by rewrite split_last_after, split_last_without.
Qed.

Lemma upload_type_is_last_extension_witness :
  dotless "pdf"
  ∧ read_resume sample_world
      {| filename := "cv.2024" +:+ "." +:+ "pdf"; file_content := [] |}
    = inr (Return "error" "Failed to parse PDF content.").
Proof.
  assert (H : dotless "pdf") by by_evaluation.
  split; [exact H |].
  exact (upload_type_is_last_extension sample_world "cv.2024" "pdf" [] H).
Defined.

(** X14. The letter case of the file name plays no part in how an upload
    is read. *)
Theorem upload_type_ignores_case (env : Env) (name : string)
    (content : list Byte.byte) :
  read_resume env {| filename := lower name; file_content := content |}
  = read_resume env {| filename := name; file_content := content |}.
Proof.
  unfold read_resume. simpl. by rewrite split_last_lower, lower_idem.
Qed.

(** X15. The map posted for a decoded upload has exactly the extracted
    keywords as its keys when the browser started, and no key at all when
    it did not. *)
Theorem posted_map_keys (env : Env) (file : UploadFile) (resume_text : string) :
  read_resume env file = inl resume_text →
  ∃ payload,
    last (recommend_jobs env file).2 = Some (EvPost payload)
    ∧ dom payload
      = if chrome env [EvExtract resume_text]
        then list_to_set (extract_keywords_from_resume (nlp env) resume_text)
        else ∅.
Proof.
  intros Hread.
  destruct (recommend_jobs_decoded env file resume_text Hread) as [-> _].
  eexists. split; [apply last_snoc |].
  unfold scrape_jobs, scrape_loop.
  destruct (chrome env [EvExtract resume_text]); simpl.
  - rewrite loop_dom. simpl. by rewrite dom_empty_L, (left_id_L ∅ (∪)).
  - apply dom_empty_L.
Qed.

Lemma posted_map_keys_witness :
  read_resume (reading_world true "Python developer") sample_txt
  = inl "Python developer"
  ∧ ∃ payload,
      last (recommend_jobs (reading_world true "Python developer")
              sample_txt).2
      = Some (EvPost payload)
      ∧ dom payload = list_to_set ["Fallback"; "NLP Error"].
Proof.
  assert (Hread : read_resume (reading_world true "Python developer")
                    sample_txt = inl "Python developer")
    by (vm_compute; reflexivity).
  split; [exact Hread |].
  exact (posted_map_keys (reading_world true "Python developer")
           sample_txt "Python developer" Hread).
Defined.
